(** * Tuteliq / SafeNest React Native bindings

    A shallow embedding of [src/context.tsx] (the provider and the
    client-lookup hook) and of [src/hooks.ts] (the catalog of operation
    hooks, all instances of one execute/reset adapter), together with the
    properties of the adapter and of the provider that the specification
    states.

    JavaScript values are untyped at run time, so inputs, results and thrown
    values are elements of one type [Js.Value].  An [async] function is a
    tree of effects ([Hooks.Async]): state writes, the one suspension point
    at [await], and the final [return] or [throw].  One mounted hook is an
    [Hooks.Adapter]; the event loop delivers [Execute], [Settle] and [Reset]
    events to it one at a time. *)

From stdpp Require Import gmap strings list.
From Stdlib Require Import ZArith DecimalString.

Set Warnings "-register-all".
Local Open Scope string_scope.

(* ===================================================================== *)
(** ** JavaScript values *)
(* ===================================================================== *)

Module Js.

(** The error classes that can reach the hooks: the built-in [Error] and
    [TypeError], and the classes that [src/index.ts] re-exports from the SDK
    ([SafeNestError] is named [TuteliqError] by the later index file).  All of
    them are subclasses of [Error]. *)
Inductive ErrorClass :=
| Error
| TypeError
| SafeNestError
| AuthenticationError
| RateLimitError
| ValidationError
| NotFoundError
| ServerError
| TimeoutError
| NetworkError.

#[global] Instance ErrorClass_eq_dec : EqDecision ErrorClass.
Proof. solve_decision. Defined.

(** An error object: its class, whose name is also the value of its [name]
    property, and its [message]. *)
Record JsError := { name : ErrorClass; message : string }.

#[global] Instance JsError_eq_dec : EqDecision JsError.
Proof. solve_decision. Defined.

(** [new Error(msg)] *)
Definition new_Error (msg : string) : JsError :=
  {| name := Error; message := msg |}.

(** [Number.MAX_SAFE_INTEGER], and [Number.isSafeInteger] on integers. *)
Definition MAX_SAFE_INTEGER : Z := 9007199254740991.

Definition isSafeInteger (z : Z) : bool := (Z.abs z <=? MAX_SAFE_INTEGER)%Z.

(** The numbers of the model are the safe integers: each one is a number
    of JavaScript, and its string form is its decimal notation. *)
Record SafeInteger := SafeInt {
  integer : Z;
  integer_safe : Is_true (isSafeInteger integer)
}.

(** Values: the primitives, arrays, plain data objects (own enumerable
    string-keyed data properties in insertion order, prototype
    [Object.prototype]) and error objects.  There are no function values, so
    a property of an object is never callable. *)
Inductive Value :=
| VUndefined
| VNull
| VBool (b : bool)
| VNumber (n : SafeInteger)
| VString (s : string)
| VArray (xs : list Value)
| VObject (props : list (string * Value))
| VError (e : JsError).

(** [v instanceof Error] *)
Definition instanceof_Error (v : Value) : bool :=
  match v with
  | VError _ => true
  | _ => false
  end.

Definition class_name (c : ErrorClass) : string :=
  match c with
  | Error => "Error"
  | TypeError => "TypeError"
  | SafeNestError => "SafeNestError"
  | AuthenticationError => "AuthenticationError"
  | RateLimitError => "RateLimitError"
  | ValidationError => "ValidationError"
  | NotFoundError => "NotFoundError"
  | ServerError => "ServerError"
  | TimeoutError => "TimeoutError"
  | NetworkError => "NetworkError"
  end.

(** [Error.prototype.toString] *)
Definition error_to_string (e : JsError) : string :=
  if decide (message e = "") then class_name (name e)
  else class_name (name e) +:+ ": " +:+ message e.

(** The outcome of evaluating an expression: a value, or a thrown value. *)
Inductive Completion (A : Type) :=
| Normal (a : A)
| Throws (v : Value).
Arguments Normal {A} a.
Arguments Throws {A} v.

(** Whether an object has an own property [key]. *)
Definition hasOwnProperty (props : list (string * Value)) (key : string) : bool :=
  bool_decide (key ∈ props.*1).

(** [String(v)]: the string form of a value, or the [TypeError] the
    conversion throws (the wording of its message is the engine's).

    A plain object is converted by its [toString] method.  An object with
    no own property [toString] inherits [Object.prototype.toString] and
    gives ["[object Object]"].  An own property [toString] hides the
    inherited method and, being data, is not callable; the conversion then
    turns to [valueOf], which is not callable either when it is an own
    property and returns the object itself when it is inherited, so the
    conversion throws.  An array joins the string forms of its elements
    with commas, [null] and [undefined] elements giving the empty string,
    and throws as soon as one of its elements does. *)
Fixpoint String (v : Value) : Completion string :=
  match v with
  | VUndefined => Normal "undefined"
  | VNull => Normal "null"
  | VBool true => Normal "true"
  | VBool false => Normal "false"
  | VNumber n => Normal (NilZero.string_of_int (Z.to_int (integer n)))
  | VString s => Normal s
  | VArray xs =>
      match
        (fix join (xs : list Value) : Completion (list string) :=
           match xs with
           | [] => Normal []
           | x :: rest =>
               match
                 match x with
                 | VUndefined | VNull => Normal ""
                 | _ => String x
                 end
               with
               | Throws exn => Throws exn
               | Normal s =>
                   match join rest with
                   | Throws exn => Throws exn
                   | Normal ss => Normal (s :: ss)
                   end
               end
           end) xs
      with
      | Throws exn => Throws exn
      | Normal ss => Normal (String.concat "," ss)
      end
  | VObject props =>
      if hasOwnProperty props "toString"
      then Throws (VError {| name := TypeError;
                             message := "Cannot convert object to primitive value" |})
      else Normal "[object Object]"
  | VError e => Normal (error_to_string e)
  end.

Fixpoint own_property (props : list (string * Value)) (key : string) : Value :=
  match props with
  | [] => VUndefined
  | (k, v) :: rest => if decide (k = key) then v else own_property rest key
  end.

(** [v.key] for the property names the hooks read ([id], [input],
    [webhookId]), none of which is a built-in property of a primitive, an
    array or an error: reading from [undefined] or [null] throws a
    [TypeError] (the wording of its message is the engine's), a plain object
    gives its own property, anything else gives [undefined]. *)
Definition get (v : Value) (key : string) : Completion Value :=
  match v with
  | VUndefined =>
      Throws (VError {| name := TypeError;
                        message := "Cannot read properties of undefined (reading '" +:+ key +:+ "')" |})
  | VNull =>
      Throws (VError {| name := TypeError;
                        message := "Cannot read properties of null (reading '" +:+ key +:+ "')" |})
  | VObject props => Normal (own_property props key)
  | _ => Normal VUndefined
  end.

(** How a promise settles. *)
Inductive Settlement :=
| Fulfilled (v : Value)
| Rejected (v : Value).

End Js.

(* ===================================================================== *)
(** ** context.tsx: the provider and the client lookup *)
(* ===================================================================== *)

Module Context.
Import Js.

(** [SafeNestProviderProps], children apart: [config] is an object of
    options or is left out. *)
Record SafeNestProviderProps := {
  apiKey : string;
  config : option (list (string * Value))
}.

(** A constructed [SafeNestClient]: which construction of its provider
    instance made it (its identity) and the options object it was given. *)
Record SafeNestClient := {
  construction : nat;
  options : list (string * Value)
}.

(** [SafeNestContextValue] *)
Record SafeNestContextValue := {
  client : SafeNestClient;
  isReady : bool
}.

(** Writes one property into an object literal under construction: a key
    already present keeps its place and takes the new value. *)
Fixpoint define_property (props : list (string * Value)) (key : string)
    (v : Value) : list (string * Value) :=
  match props with
  | [] => [(key, v)]
  | (k, w) :: rest =>
      if decide (k = key) then (k, v) :: rest
      else (k, w) :: define_property rest key v
  end.

(** [{ apiKey, ...config }] *)
Definition client_options (props : SafeNestProviderProps) : list (string * Value) :=
  match config props with
  | None => [("apiKey", VString (apiKey props))]
  | Some cfg =>
      fold_left (fun acc kv => define_property acc (fst kv) (snd kv)) cfg
        [("apiKey", VString (apiKey props))]
  end.

(** The hook slots of one mounted [SafeNestProvider]: [clientRef.current],
    the value cached by [useMemo(..., [])], and how many times this instance
    has run [new SafeNestClient(...)]. *)
Record ProviderInstance := {
  clientRef : option SafeNestClient;
  memo : option SafeNestContextValue;
  constructions : nat
}.

(** The slots at mount: [useRef(null)], nothing memoized. *)
Definition mounted : ProviderInstance :=
  {| clientRef := None; memo := None; constructions := 0 |}.

(** One render of [SafeNestProvider]: the slots afterwards and the value
    handed to [SafeNestContext.Provider]. *)
Definition SafeNestProvider (props : SafeNestProviderProps)
    (inst : ProviderInstance) : ProviderInstance * SafeNestContextValue :=
  let '(current, made) :=
    match clientRef inst with
    | None =>
        ({| construction := constructions inst; options := client_options props |},
         S (constructions inst))
    | Some c => (c, constructions inst)
    end in
  let value :=
    match memo inst with
    | None => {| client := current; isReady := true |}
    | Some cached => cached
    end in
  ({| clientRef := Some current; memo := Some value; constructions := made |},
   value).

(** The renders of one mounted provider, each with its own props; the
    values provided are listed in render order. *)
Fixpoint renders (inst : ProviderInstance) (ps : list SafeNestProviderProps)
    : ProviderInstance * list SafeNestContextValue :=
  match ps with
  | [] => (inst, [])
  | p :: rest =>
      let '(inst1, v) := SafeNestProvider p inst in
      let '(inst2, vs) := renders inst1 rest in
      (inst2, v :: vs)
  end.

(** [useSafeNestClient], given what [useContext(SafeNestContext)] returns:
    the value of the nearest enclosing provider, or the default [null]
    ([None]) when there is none. *)
Definition useSafeNestClient (context : option SafeNestContextValue)
    : Completion SafeNestContextValue :=
  match context with
  | None =>
      Throws (VError (new_Error "useSafeNestClient must be used within a SafeNestProvider"))
  | Some value => Normal value
  end.

End Context.

(* ===================================================================== *)
(** ** hooks.ts: the operation hooks *)
(* ===================================================================== *)

Module Hooks.
Import Js Context.

(** [AsyncState<T>]; a [null] field holds [VNull]. *)
Record AsyncState := {
  data : Value;
  loading : bool;
  error : Value
}.

(** The catalog: one constructor per exported hook of [hooks.ts]. *)
Inductive Hook :=
| useDetectBullying
| useDetectGrooming
| useDetectUnsafe
| useAnalyze
| useAnalyzeEmotions
| useGetActionPlan
| useGenerateReport
| useDeleteAccountData
| useExportAccountData
| useRecordConsent
| useGetConsentStatus
| useWithdrawConsent
| useRectifyData
| useGetAuditLogs
| useLogBreach
| useListBreaches
| useGetBreach
| useUpdateBreachStatus
| useAnalyzeVoice
| useAnalyzeImage
| useListWebhooks
| useCreateWebhook
| useUpdateWebhook
| useDeleteWebhook
| useTestWebhook
| useRegenerateWebhookSecret
| useGetPricing
| useGetPricingDetails
| useGetUsageHistory
| useGetUsageByTool
| useGetUsageMonthly.

(** The method of the client that each hook wraps. *)
Definition client_method (h : Hook) : string :=
  match h with
  | useDetectBullying => "detectBullying"
  | useDetectGrooming => "detectGrooming"
  | useDetectUnsafe => "detectUnsafe"
  | useAnalyze => "analyze"
  | useAnalyzeEmotions => "analyzeEmotions"
  | useGetActionPlan => "getActionPlan"
  | useGenerateReport => "generateReport"
  | useDeleteAccountData => "deleteAccountData"
  | useExportAccountData => "exportAccountData"
  | useRecordConsent => "recordConsent"
  | useGetConsentStatus => "getConsentStatus"
  | useWithdrawConsent => "withdrawConsent"
  | useRectifyData => "rectifyData"
  | useGetAuditLogs => "getAuditLogs"
  | useLogBreach => "logBreach"
  | useListBreaches => "listBreaches"
  | useGetBreach => "getBreach"
  | useUpdateBreachStatus => "updateBreachStatus"
  | useAnalyzeVoice => "analyzeVoice"
  | useAnalyzeImage => "analyzeImage"
  | useListWebhooks => "listWebhooks"
  | useCreateWebhook => "createWebhook"
  | useUpdateWebhook => "updateWebhook"
  | useDeleteWebhook => "deleteWebhook"
  | useTestWebhook => "testWebhook"
  | useRegenerateWebhookSecret => "regenerateWebhookSecret"
  | useGetPricing => "getPricing"
  | useGetPricingDetails => "getPricingDetails"
  | useGetUsageHistory => "getUsageHistory"
  | useGetUsageByTool => "getUsageByTool"
  | useGetUsageMonthly => "getUsageMonthly"
  end.

(** The argument list each hook's [execute] builds from its parameter:
    nothing for the hooks whose [execute] takes no parameter, the two
    properties [params.id]/[params.webhookId] and [params.input] for the two
    update hooks, and the parameter itself for every other hook. *)
Definition client_args (h : Hook) (input : Value) : Completion (list Value) :=
  match h with
  | useDeleteAccountData | useExportAccountData | useListWebhooks
  | useGetPricing | useGetPricingDetails | useGetUsageMonthly =>
      Normal []
  | useUpdateBreachStatus =>
      match get input "id" with
      | Throws exn => Throws exn
      | Normal id =>
          match get input "input" with
          | Throws exn => Throws exn
          | Normal inner => Normal [id; inner]
          end
      end
  | useUpdateWebhook =>
      match get input "webhookId" with
      | Throws exn => Throws exn
      | Normal webhookId =>
          match get input "input" with
          | Throws exn => Throws exn
          | Normal inner => Normal [webhookId; inner]
          end
      end
  | _ => Normal [input]
  end.

(** The body of an [async] function, as the effects it performs in order:
    [setState(s)], the call of a client method whose promise is awaited
    (the continuation receives the settlement), and the final [return] or
    uncaught [throw], which settle the function's own promise. *)
Inductive Async :=
| Return (v : Value)
| Throw (v : Value)
| SetState (s : AsyncState) (k : Async)
| Await (method : string) (args : list Value) (k : Settlement -> Async).

(** [try { body } catch (err) { handler err }] *)
Fixpoint try_catch (body : Async) (handler : Value -> Async) : Async :=
  match body with
  | Return v => Return v
  | Throw err => handler err
  | SetState s k => SetState s (try_catch k handler)
  | Await m args k => Await m args (fun o => try_catch (k o) handler)
  end.

(** [const result = await client.method(...args); k result]: a rejection of
    the awaited promise is thrown at the [await]. *)
Definition await_client (method : string) (args : list Value)
    (k : Value -> Async) : Async :=
  Await method args (fun o => match o with
                              | Fulfilled result => k result
                              | Rejected err => Throw err
                              end).

(** [err instanceof Error ? err : new Error(String(err))]; when [String]
    throws, so does the whole expression. *)
Definition normalize (err : Value) : Completion Value :=
  if instanceof_Error err then Normal err
  else match String err with
       | Throws exn => Throws exn
       | Normal s => Normal (VError (new_Error s))
       end.

(** [execute], the same in every hook up to the client call.  In the catch
    block the normalization comes first: when it throws, the block is left
    before its [setState] and the promise is rejected with what it threw. *)
Definition execute (h : Hook) (input : Value) : Async :=
  SetState {| data := VNull; loading := true; error := VNull |}
    (try_catch
       (match client_args h input with
        | Throws exn => Throw exn
        | Normal args =>
            await_client (client_method h) args (fun result =>
              SetState {| data := result; loading := false; error := VNull |}
                (Return result))
        end)
       (fun err =>
          match normalize err with
          | Throws exn => Throw exn
          | Normal error =>
              SetState {| data := VNull; loading := false; error := error |}
                (Throw error)
          end)).

(** [reset] *)
Definition reset : Async :=
  SetState {| data := VNull; loading := false; error := VNull |}
    (Return VUndefined).

(** The argument of [useState]. *)
Definition initial_state : AsyncState :=
  {| data := VNull; loading := false; error := VNull |}.

(** *** The event loop

    Where a run of an [async] body stops: settled (its promise fulfilled or
    rejected), or suspended at an [await] on a client call. *)
Inductive Status :=
| Settled (o : Settlement)
| Suspended (method : string) (args : list Value) (k : Settlement -> Async).

(** Runs a body from state [s] up to its end or its next suspension; the
    state returned is the last one written, or [s] when nothing was. *)
Fixpoint run (p : Async) (s : AsyncState) : AsyncState * Status :=
  match p with
  | Return v => (s, Settled (Fulfilled v))
  | Throw v => (s, Settled (Rejected v))
  | SetState s' k => run k s'
  | Await m args k => (s, Suspended m args k)
  end.

(** A remote call that was issued: the invocation of [execute] that issued
    it, the client method and the arguments. *)
Record Request := {
  req_call : nat;
  req_method : string;
  req_args : list Value
}.

(** One mounted hook: its state slot, the invocations of [execute] that are
    suspended at their [await] (by invocation number), every remote call
    issued so far (oldest first), the promises of [execute] that have
    settled, and the number of the next invocation. *)
Record Adapter := {
  state : AsyncState;
  pending : gmap nat (Settlement -> Async);
  requests : list Request;
  promises : gmap nat Settlement;
  next_call : nat
}.

(** The adapter of a hook that has rendered. *)
Definition mount : Adapter :=
  {| state := initial_state; pending := ∅; requests := [];
     promises := ∅; next_call := 0 |}.

(** The first render of any hook of the catalog: it looks the client up
    ([hooks.ts] imports the lookup hook of [context.tsx] under its later name
    [useTuteliqClient]) and then allocates its state slot. *)
Definition first_render (context : option SafeNestContextValue)
    : Completion Adapter :=
  match useSafeNestClient context with
  | Throws exn => Throws exn
  | Normal _ => Normal mount
  end.

(** What the event loop delivers to a mounted hook: a call of [execute], the
    settlement of the remote call of invocation [id], a call of [reset]. *)
Inductive Event :=
| Execute (input : Value)
| Settle (id : nat) (o : Settlement)
| Reset.

(** Books the outcome of running invocation [id] up to state [s1]. *)
Definition book (a : Adapter) (id : nat) (r : AsyncState * Status) : Adapter :=
  match r with
  | (s1, Settled o) =>
      {| state := s1; pending := delete id (pending a);
         requests := requests a;
         promises := <[id := o]> (promises a);
         next_call := next_call a |}
  | (s1, Suspended m args k) =>
      {| state := s1; pending := <[id := k]> (pending a);
         requests := requests a ++ [{| req_call := id; req_method := m; req_args := args |}];
         promises := promises a;
         next_call := next_call a |}
  end.

Definition step (h : Hook) (a : Adapter) (e : Event) : Adapter :=
  match e with
  | Execute input =>
      let id := next_call a in
      book {| state := state a; pending := pending a; requests := requests a;
              promises := promises a; next_call := S id |}
           id (run (execute h input) (state a))
  | Settle id o =>
      match pending a !! id with
      | Some k => book a id (run (k o) (state a))
      | None => a
      end
  | Reset =>
      {| state := fst (run reset (state a)); pending := pending a;
         requests := requests a; promises := promises a;
         next_call := next_call a |}
  end.

Definition steps (h : Hook) (a : Adapter) (es : list Event) : Adapter :=
  fold_left (step h) es a.

(** *** Vocabulary of the statements

    The state in which the rest of [execute] leaves the hook when it
    resumes from state [s] with the settlement [o] of its remote call: the
    state of the success write, that of the failure write, or [s] itself
    when the catch block throws before its write. *)
Definition resumed_state (s : AsyncState) (o : Settlement) : AsyncState :=
  match o with
  | Fulfilled result => {| data := result; loading := false; error := VNull |}
  | Rejected err =>
      match normalize err with
      | Normal error => {| data := VNull; loading := false; error := error |}
      | Throws _ => s
      end
  end.

(** How the promise of [execute] settles when its remote call settles as
    [o]. *)
Definition resumed_promise (o : Settlement) : Settlement :=
  match o with
  | Fulfilled result => Fulfilled result
  | Rejected err =>
      match normalize err with
      | Normal error => Rejected error
      | Throws exn => Rejected exn
      end
  end.

(** [E] is the normalized form of the thrown value [v]: [v] itself when it
    is an [Error], otherwise a generic [Error] that wraps the string form
    of [v]. *)
Definition normalizes_to (v E : Value) : Prop :=
  (instanceof_Error v = true /\ E = v)
  \/ (instanceof_Error v = false
      /\ exists s, String v = Normal s /\ E = VError (new_Error s)).

(** The settlement [o] of a remote call is handled to the end, writing the
    state [s] and settling the promise of [execute] as [p]: a success
    writes the result and resolves with it; a failure whose thrown value
    normalizes to [E] writes [E] and rejects with it. *)
Definition outcome_of (o : Settlement) (s : AsyncState) (p : Settlement) : Prop :=
  match o with
  | Fulfilled result =>
      s = {| data := result; loading := false; error := VNull |}
      /\ p = Fulfilled result
  | Rejected v =>
      exists E, normalizes_to v E
                /\ s = {| data := VNull; loading := false; error := E |}
                /\ p = Rejected E
  end.

(** Whether the hook handles an event to the end: every event but the
    rejection of a remote call with a value whose normalization throws. *)
Definition handled (e : Event) : bool :=
  match e with
  | Settle _ (Rejected v) =>
      match normalize v with
      | Normal _ => true
      | Throws _ => false
      end
  | _ => true
  end.


(** [v.key] as a caller reads it off an input or a result object. *)
Definition field (v : Value) (key : string) : Value :=
  match v with
  | VObject props => own_property props key
  | _ => VUndefined
  end.


(** A continuation that behaves as the rest of [execute] after its [await]:
    at most one more state write, then the promise settles. *)
Definition resumes_execute (k : Settlement -> Async) : Prop :=
  forall o s, run (k o) s = (resumed_state s o, Settled (resumed_promise o)).

(** What holds of every adapter the event loop can reach: each suspended
    invocation is an invocation of [execute] that has been numbered and
    whose promise has not settled, and no promise exists for an invocation
    that has not been made. *)
Record adapter_inv (a : Adapter) : Prop := {
  inv_pending : forall id k, pending a !! id = Some k ->
      resumes_execute k /\ id < next_call a /\ promises a !! id = None;
  inv_fresh : forall id, next_call a <= id -> promises a !! id = None
}.

(** Whether an event is a call of [execute] that gets as far as calling the
    client: the arguments of the call evaluate. *)
Definition issues_call (h : Hook) (e : Event) : bool :=
  match e with
  | Execute input =>
      match client_args h input with
      | Normal _ => true
      | Throws _ => false
      end
  | _ => false
  end.

(** Whether an event is the settlement of the remote call of invocation
    [id]. *)
Definition settles (id : nat) (e : Event) : bool :=
  match e with
  | Settle id' _ => bool_decide (id' = id)
  | _ => false
  end.

(** The shape of a state: data and error only without loading, and an
    error that is an [Error] and excludes data. *)
Definition well_shaped (s : AsyncState) : Prop :=
  (loading s = true -> data s = VNull /\ error s = VNull)
  /\ (error s = VNull
      \/ (instanceof_Error (error s) = true /\ data s = VNull /\ loading s = false)).

(** While the state says [loading], the latest invocation is suspended. *)
Definition loading_in_flight (a : Adapter) : Prop :=
  loading (state a) = true ->
  0 < next_call a /\ is_Some (pending a !! pred (next_call a)).

(** The hooks whose [execute] is declared without a parameter. *)
Definition parameterless : list Hook :=
  [useDeleteAccountData; useExportAccountData; useListWebhooks;
   useGetPricing; useGetPricingDetails; useGetUsageMonthly].

End Hooks.


(* ===================================================================== *)
(** ** Sample data *)
(* ===================================================================== *)

Module Samples.
Import Js Context Hooks.

(** A bullying-detection input with tracking fields, as in the README. *)
Definition message_1 : Value :=
  VObject [("content", VString "you are worthless");
           ("externalId", VString "msg_12345");
           ("metadata", VObject [("userId", VString "usr_abc")])].

Definition message_2 : Value :=
  VObject [("content", VString "hello")].

(** Results of a stubbed remote call. *)
Definition result_1 : Value :=
  VObject [("is_bullying", VBool true); ("severity", VString "high")].

Definition result_2 : Value :=
  VObject [("is_bullying", VBool false)].

(** An adapter that holds the data of an earlier success. *)
Definition stale : Adapter :=
  steps useDetectBullying mount [Execute message_2; Settle 0 (Fulfilled result_2)].

Definition props_1 : SafeNestProviderProps :=
  {| apiKey := "key-1"; config := Some [("timeout", VNumber (SafeInt 10000 I))] |}.

Definition props_2 : SafeNestProviderProps :=
  {| apiKey := "key-2"; config := None |}.

(** The parameter of an update hook, without its [input] property. *)
Definition update_params : Value :=
  VObject [("webhookId", VString "wh_1")].

Definition props_3 : SafeNestProviderProps :=
  {| apiKey := "key-3";
     config := Some [("timeout", VNumber (SafeInt 5000 I));
                     ("maxRetries", VNumber (SafeInt 2 I))] |}.


(** A thrown object with an own data property [toString]. *)
Definition unconvertible : Value :=
  VObject [("toString", VString "x")].

End Samples.

(* ===================================================================== *)
(** ** Properties of the adapter *)
(* ===================================================================== *)

Module HooksSpec.
Import Js Context Hooks.

(** The state [execute] writes before it calls the client. *)
Abbreviation loading_state := {| data := VNull; loading := true; error := VNull |}.

Lemma run_execute_issued h input s args :
  client_args h input = Normal args ->
  exists k, run (execute h input) s = (loading_state, Suspended (client_method h) args k)
            /\ resumes_execute k.
Proof.
  intros Hargs. unfold execute. rewrite Hargs. cbn [run await_client try_catch].
  eexists. split; [reflexivity|].
  intros [result|err] s'; [reflexivity|].
  unfold resumed_state, resumed_promise. cbn [try_catch].
  destruct (normalize err); reflexivity.
Qed.

Lemma run_execute_thrown h input s exn :
  client_args h input = Throws exn ->
  run (execute h input) s
  = (resumed_state loading_state (Rejected exn),
     Settled (resumed_promise (Rejected exn))).
Proof.
  intros Hargs. unfold execute. rewrite Hargs.
  unfold resumed_state, resumed_promise. cbn [run try_catch].
  destruct (normalize exn); reflexivity.
Qed.

Lemma client_args_throws h input exn :
  client_args h input = Throws exn ->
  (h = useUpdateBreachStatus \/ h = useUpdateWebhook)
  /\ (input = VUndefined \/ input = VNull)
  /\ instanceof_Error exn = true.
Proof.
  destruct h; cbn; try discriminate;
    destruct input; cbn; try discriminate;
    intros [= <-]; auto.
Qed.

Lemma inv_mount : adapter_inv mount.
Proof. split; intros *; cbn; [rewrite lookup_empty; discriminate | intros _; apply lookup_empty]. Qed.

Lemma inv_book_settled a id s1 o :
  adapter_inv a -> id < next_call a ->
  adapter_inv (book a id (s1, Settled o)).
Proof.
  intros [Hp Hf] Hid. split; cbn.
  - intros id' k Hk. apply lookup_delete_Some in Hk as [Hne Hk].
    destruct (Hp _ _ Hk) as (? & ? & ?).
    rewrite lookup_insert_ne by done. auto.
  - intros id' Hle. rewrite lookup_insert_ne by lia. auto.
Qed.

Lemma inv_book_suspended a id s1 m args k :
  adapter_inv a -> id < next_call a -> promises a !! id = None ->
  resumes_execute k ->
  adapter_inv (book a id (s1, Suspended m args k)).
Proof.
  intros [Hp Hf] Hid Hnone Hk. split; cbn; [|done].
  intros id' k' Hk'. destruct (decide (id' = id)) as [->|Hne].
  - rewrite lookup_insert_eq in Hk'. injection Hk' as <-. auto.
  - rewrite lookup_insert_ne in Hk' by done. auto.
Qed.

Lemma inv_step h a e : adapter_inv a -> adapter_inv (step h a e).
Proof.
  intros Ha. destruct e as [input|id o|]; cbn [step].
  - assert (Ha' : adapter_inv {| state := state a; pending := pending a;
                                 requests := requests a; promises := promises a;
                                 next_call := S (next_call a) |}).
    { destruct Ha as [Hp Hf]. split; cbn.
      - intros id k Hk. destruct (Hp _ _ Hk) as (? & ? & ?). auto with lia.
      - intros id Hle. apply Hf. lia. }
    destruct (client_args h input) as [args|exn] eqn:Hargs.
    + destruct (run_execute_issued h input (state a) args Hargs) as (k & -> & Hk).
      apply inv_book_suspended; cbn; auto.
      destruct Ha as [_ Hf]. apply Hf. lia.
    + rewrite (run_execute_thrown h input (state a) exn Hargs).
      apply inv_book_settled; cbn; auto.
  - destruct (pending a !! id) as [k|] eqn:Hk; [|done].
    destruct (inv_pending a Ha _ _ Hk) as (Hres & Hlt & _).
    rewrite Hres. apply inv_book_settled; auto.
  - destruct Ha as [Hp Hf]. split; cbn; auto.
Qed.

Lemma inv_steps h es : forall a, adapter_inv a -> adapter_inv (steps h a es).
Proof.
  induction es as [|e es IH]; intros a Ha; cbn; [done|].
  apply IH, inv_step, Ha.
Qed.

Lemma inv_reachable h es : adapter_inv (steps h mount es).
Proof. apply inv_steps, inv_mount. Qed.

(** Settling a suspended invocation of a reachable adapter. *)
Lemma step_settle h a id o :
  adapter_inv a -> is_Some (pending a !! id) ->
  let a' := step h a (Settle id o) in
  state a' = resumed_state (state a) o
  /\ promises a' !! id = Some (resumed_promise o)
  /\ pending a' = delete id (pending a)
  /\ requests a' = requests a
  /\ next_call a' = next_call a.
Proof.
  intros Ha [k Hk]. cbn [step]. rewrite Hk.
  destruct (inv_pending a Ha _ _ Hk) as (Hres & _ & _). rewrite Hres. cbn.
  rewrite lookup_insert_eq. auto.
Qed.

(** Calling [execute] with a parameter whose arguments evaluate. *)
Lemma step_execute h a input args :
  client_args h input = Normal args ->
  let a' := step h a (Execute input) in
  state a' = loading_state
  /\ (exists k, pending a' = <[next_call a := k]> (pending a))
  /\ requests a' = (requests a ++ [{| req_call := next_call a;
                                      req_method := client_method h;
                                      req_args := args |}])%list
  /\ promises a' = promises a
  /\ next_call a' = S (next_call a).
Proof.
  intros Hargs. cbn [step].
  destruct (run_execute_issued h input (state a) args Hargs) as (k & -> & _).
  cbn. eauto 10.
Qed.

Lemma normalize_spec v E : normalize v = Normal E <-> normalizes_to v E.
Proof.
  unfold normalize, normalizes_to.
  destruct (instanceof_Error v) eqn:Hv.
  - split.
    + intros [= <-]. auto.
    + intros [[_ ->] | [? _]]; [reflexivity | discriminate].
  - split.
    + destruct (String v) as [s|exn]; [|discriminate].
      intros [= <-]. right. eauto.
    + intros [[? _] | (_ & s & -> & ->)]; [discriminate | reflexivity].
Qed.

Lemma normalizes_to_error v E : normalizes_to v E -> instanceof_Error E = true.
Proof. intros [[Hv ->] | (_ & s & _ & ->)]; [exact Hv | reflexivity]. Qed.

Lemma normalize_is_error v E : normalize v = Normal E -> instanceof_Error E = true.
Proof. intros H. apply normalize_spec in H. exact (normalizes_to_error v E H). Qed.

(** An object with an own property [toString] cannot be normalized: the
    conversion to a string throws a [TypeError]. *)
Lemma normalize_own_toString props :
  "toString" ∈ props.*1 ->
  exists e, name e = TypeError /\ normalize (VObject props) = Throws (VError e).
Proof.
  intros Hin. unfold normalize. cbn. unfold hasOwnProperty.
  rewrite bool_decide_eq_true_2 by exact Hin. eexists. split; [|reflexivity].
  reflexivity.
Qed.

(** A settlement handled to the end is resumed as its outcome says. *)
Lemma outcome_resumed o s p s0 :
  outcome_of o s p -> resumed_state s0 o = s /\ resumed_promise o = p.
Proof.
  destruct o as [result|v]; cbn.
  - intros [-> ->]. auto.
  - intros (E & HE & -> & ->). apply normalize_spec in HE. rewrite HE. auto.
Qed.



(** C1: for every hook of the catalog, every input and every adapter
    (whatever state it holds, stale data included), the first thing
    [execute] does is to write [{data: null, loading: true, error: null}];
    whenever the arguments of the client call evaluate, the adapter is left
    in exactly that state with the remote call issued, the invocation
    suspended on it and the promise of [execute] still unsettled.  The
    arguments fail to evaluate only for the two update hooks called with
    [undefined] or [null]. *)
Theorem execute_sets_loading_synchronously
    (h : Hook) (input : Value) (a : Adapter) :
  (exists k, execute h input = SetState loading_state k)
  /\ (forall args, client_args h input = Normal args ->
       state (step h a (Execute input)) = loading_state
       /\ is_Some (pending (step h a (Execute input)) !! next_call a)
       /\ promises (step h a (Execute input)) = promises a
       /\ requests (step h a (Execute input))
          = (requests a ++ [{| req_call := next_call a;
                               req_method := client_method h;
                               req_args := args |}])%list)
  /\ (forall exn, client_args h input = Throws exn ->
       (h = useUpdateBreachStatus \/ h = useUpdateWebhook)
       /\ (input = VUndefined \/ input = VNull)).
Proof.
  split; [eexists; reflexivity|]. split.
  - intros args Hargs.
    destruct (step_execute h a input args Hargs) as (Hs & [k Hk] & Hr & Hp & _).
    repeat split; try assumption.
    rewrite Hk, lookup_insert_eq. eauto.
  - intros exn Hexn. destruct (client_args_throws h input exn Hexn) as (? & ? & _).
    auto.
Qed.

Lemma execute_sets_loading_witness :
  data (state Samples.stale) = Samples.result_2
  /\ state (step useDetectBullying Samples.stale (Execute Samples.message_1))
     = loading_state.
Proof.
  split; [reflexivity|].
  exact (proj1 (proj1 (proj2 (execute_sets_loading_synchronously
                               useDetectBullying Samples.message_1 Samples.stale))
                      [Samples.message_1] eq_refl)).
Defined.

(** C2: in any adapter the event loop can reach, when the remote call of a
    suspended invocation of [execute] resolves with [result], the state
    becomes [{data: result, loading: false, error: null}] and the promise of
    that invocation is fulfilled with the same [result]. *)
Theorem execute_success (h : Hook) (es : list Event) (id : nat) (result : Value) :
  is_Some (pending (steps h mount es) !! id) ->
  state (step h (steps h mount es) (Settle id (Fulfilled result)))
  = {| data := result; loading := false; error := VNull |}
  /\ promises (step h (steps h mount es) (Settle id (Fulfilled result))) !! id
     = Some (Fulfilled result).
Proof.
  intros Hid.
  destruct (step_settle h _ id (Fulfilled result) (inv_reachable h es) Hid)
    as (Hs & Hp & _).
  split; assumption.
Qed.

Lemma execute_success_witness :
  state (steps useDetectBullying mount
           [Execute Samples.message_1; Settle 0 (Fulfilled Samples.result_1)])
  = {| data := Samples.result_1; loading := false; error := VNull |}.
Proof.
  refine (proj1 (execute_success useDetectBullying [Execute Samples.message_1]
                   0 Samples.result_1 _)).
  eexists. reflexivity.
Defined.

(** C3: the catch block of [execute] converts a thrown value that is not
    an [Error] with [String(err)] before it writes the state, and that
    conversion itself throws for an object with an own property [toString].
    In any adapter the event loop can reach, when the remote call of a
    suspended invocation fails with such an object, no failure state is
    written: the state stays as it was (with [loading] still true if it
    was), the promise of the invocation is rejected with the [TypeError] of
    the conversion and not with a normalized error held in the state, and
    the invocation is no longer in flight. *)
Theorem execute_failure_unconvertible
    (h : Hook) (es : list Event) (id : nat) (props : list (string * Value)) :
  is_Some (pending (steps h mount es) !! id) ->
  "toString" ∈ props.*1 ->
  state (step h (steps h mount es) (Settle id (Rejected (VObject props))))
  = state (steps h mount es)
  /\ (exists e,
        name e = TypeError
        /\ promises (step h (steps h mount es) (Settle id (Rejected (VObject props))))
             !! id = Some (Rejected (VError e)))
  /\ pending (step h (steps h mount es) (Settle id (Rejected (VObject props))))
       !! id = None.
Proof.
  intros Hid Hin.
  destruct (step_settle h _ id (Rejected (VObject props)) (inv_reachable h es) Hid)
    as (Hs & Hp & Hd & _).
  destruct (normalize_own_toString props Hin) as (e & He & Hn).
  unfold resumed_state in Hs. unfold resumed_promise in Hp.
  rewrite Hn in Hs, Hp.
  split; [exact Hs|]. split; [eauto|].
  rewrite Hd. apply lookup_delete_eq.
Qed.

Lemma execute_failure_unconvertible_witness :
  state (steps useDetectBullying mount
           [Execute Samples.message_2; Settle 0 (Rejected Samples.unconvertible)])
  = {| data := VNull; loading := true; error := VNull |}
  /\ pending (steps useDetectBullying mount
                [Execute Samples.message_2; Settle 0 (Rejected Samples.unconvertible)])
      !! 0 = None.
Proof.
  assert (Hid : is_Some (pending (steps useDetectBullying mount
                                    [Execute Samples.message_2]) !! 0))
    by (eexists; reflexivity).
  assert (Hin : "toString" ∈ [("toString", VString "x")].*1)
    by (apply elem_of_cons; left; reflexivity).
  destruct (execute_failure_unconvertible useDetectBullying
              [Execute Samples.message_2] 0 [("toString", VString "x")] Hid Hin)
    as (Hs & _ & Hp).
  split; [exact Hs | exact Hp].
Defined.

(** Two overlapping invocations on a reachable adapter: both remote calls
    are issued, both invocations are suspended. *)
Lemma two_executes h a i1 i2 args1 args2 :
  adapter_inv a ->
  client_args h i1 = Normal args1 ->
  client_args h i2 = Normal args2 ->
  adapter_inv (steps h a [Execute i1; Execute i2])
  /\ is_Some (pending (steps h a [Execute i1; Execute i2]) !! next_call a)
  /\ is_Some (pending (steps h a [Execute i1; Execute i2]) !! S (next_call a))
  /\ requests (steps h a [Execute i1; Execute i2])
     = (requests a ++ [{| req_call := next_call a;
                          req_method := client_method h; req_args := args1 |};
                       {| req_call := S (next_call a);
                          req_method := client_method h; req_args := args2 |}])%list.
Proof.
  intros Ha H1 H2. split; [apply inv_steps, Ha|].
  change (steps h a [Execute i1; Execute i2])
    with (step h (step h a (Execute i1)) (Execute i2)).
  destruct (step_execute h a i1 args1 H1) as (_ & [k1 Hk1] & Hr1 & _ & Hn1).
  destruct (step_execute h (step h a (Execute i1)) i2 args2 H2)
    as (_ & [k2 Hk2] & Hr2 & _ & _).
  rewrite Hk2, Hk1, Hr2, Hr1, Hn1. repeat split.
  - rewrite lookup_insert_ne by lia. rewrite lookup_insert_eq. eauto.
  - rewrite lookup_insert_eq. eauto.
  - rewrite <- app_assoc. reflexivity.
Qed.

(** After one of two suspended invocations settles, the other is still
    suspended. *)
Lemma settle_keeps_other h a id id' o :
  adapter_inv a -> id <> id' ->
  is_Some (pending a !! id) -> is_Some (pending a !! id') ->
  is_Some (pending (step h a (Settle id o)) !! id')
  /\ promises (step h a (Settle id o)) !! id = Some (resumed_promise o).
Proof.
  intros Ha Hne Hid Hid'.
  destruct (step_settle h a id o Ha Hid) as (_ & Hp & Hd & _).
  split; [|exact Hp]. rewrite Hd, lookup_delete_ne by done. exact Hid'.
Qed.

(** A promise of [execute] that has settled stays as it is. *)
Lemma settle_keeps_promise h a id id' o s :
  adapter_inv a -> id <> id' ->
  promises a !! id' = Some s ->
  promises (step h a (Settle id o)) !! id' = Some s.
Proof.
  intros Ha Hne Hs. cbn [step].
  destruct (pending a !! id) as [k|] eqn:Hk; [|exact Hs].
  destruct (inv_pending a Ha _ _ Hk) as (Hres & _ & _). rewrite Hres. cbn.
  rewrite lookup_insert_ne by done. exact Hs.
Qed.

(** Two suspended invocations settled one after the other, each handled
    to the end: the state is that of the later settlement and each promise
    has its own outcome. *)
Lemma settle_both h b ida idb oa ob sa pa sb pb :
  adapter_inv b -> ida <> idb ->
  is_Some (pending b !! ida) -> is_Some (pending b !! idb) ->
  outcome_of oa sa pa -> outcome_of ob sb pb ->
  state (step h (step h b (Settle ida oa)) (Settle idb ob)) = sb
  /\ promises (step h (step h b (Settle ida oa)) (Settle idb ob)) !! ida = Some pa
  /\ promises (step h (step h b (Settle ida oa)) (Settle idb ob)) !! idb = Some pb.
Proof.
  intros Hb Hne Ha Hbd Hoa Hob.
  destruct (settle_keeps_other h b ida idb oa Hb Hne Ha Hbd) as (Hq & Hpa).
  pose proof (inv_step h b (Settle ida oa) Hb) as Hb1.
  destruct (step_settle h _ idb ob Hb1 Hq) as (Hs & Hpb & _).
  destruct (outcome_resumed oa sa pa (state b) Hoa) as [_ Hra].
  destruct (outcome_resumed ob sb pb (state (step h b (Settle ida oa))) Hob)
    as [Hsb Hrb].
  rewrite Hra in Hpa. rewrite Hsb in Hs. rewrite Hrb in Hpb.
  split; [exact Hs|]. split; [|exact Hpb].
  apply settle_keeps_promise; auto.
Qed.

(** C4 (as amended): on any reachable adapter, two overlapping invocations
    of [execute] both issue their remote call at once (nothing is queued).
    With both settlements handled to the end, when the second call settles
    first and the first call settles after it, the final state is the one
    written for the first call, whose settlement occurred last; settled in
    the other order, the final state is the one written for the second
    call; and in either order each invocation's own promise settles with
    its own outcome (nothing is cancelled). *)
Theorem overlapping_last_settled_wins
    (h : Hook) (es : list Event) (i1 i2 : Value) (args1 args2 : list Value)
    (o1 o2 : Settlement) (s1 s2 : AsyncState) (p1 p2 : Settlement) :
  client_args h i1 = Normal args1 ->
  client_args h i2 = Normal args2 ->
  outcome_of o1 s1 p1 ->
  outcome_of o2 s2 p2 ->
  requests (steps h (steps h mount es) [Execute i1; Execute i2])
  = (requests (steps h mount es)
     ++ [{| req_call := next_call (steps h mount es);
            req_method := client_method h; req_args := args1 |};
         {| req_call := S (next_call (steps h mount es));
            req_method := client_method h; req_args := args2 |}])%list
  /\ state (steps h (steps h mount es)
              [Execute i1; Execute i2;
               Settle (S (next_call (steps h mount es))) o2;
               Settle (next_call (steps h mount es)) o1])
     = s1
  /\ promises (steps h (steps h mount es)
                 [Execute i1; Execute i2;
                  Settle (S (next_call (steps h mount es))) o2;
                  Settle (next_call (steps h mount es)) o1])
       !! next_call (steps h mount es) = Some p1
  /\ promises (steps h (steps h mount es)
                 [Execute i1; Execute i2;
                  Settle (S (next_call (steps h mount es))) o2;
                  Settle (next_call (steps h mount es)) o1])
       !! S (next_call (steps h mount es)) = Some p2
  /\ state (steps h (steps h mount es)
              [Execute i1; Execute i2;
               Settle (next_call (steps h mount es)) o1;
               Settle (S (next_call (steps h mount es))) o2])
     = s2
  /\ promises (steps h (steps h mount es)
                 [Execute i1; Execute i2;
                  Settle (next_call (steps h mount es)) o1;
                  Settle (S (next_call (steps h mount es))) o2])
       !! next_call (steps h mount es) = Some p1
  /\ promises (steps h (steps h mount es)
                 [Execute i1; Execute i2;
                  Settle (next_call (steps h mount es)) o1;
                  Settle (S (next_call (steps h mount es))) o2])
       !! S (next_call (steps h mount es)) = Some p2.
Proof.
  intros H1 H2 Ho1 Ho2.
  set (a := steps h mount es).
  assert (Ha : adapter_inv a) by apply inv_reachable.
  destruct (two_executes h a i1 i2 args1 args2 Ha H1 H2) as (Hb & Hp1 & Hp2 & Hr).
  set (b := steps h a [Execute i1; Execute i2]) in *.
  set (id1 := next_call a) in *. set (id2 := S id1) in *.
  assert (Hne : id2 <> id1) by (subst id2; lia).
  split; [exact Hr|].
  change (steps h a [Execute i1; Execute i2; Settle id2 o2; Settle id1 o1])
    with (step h (step h b (Settle id2 o2)) (Settle id1 o1)).
  change (steps h a [Execute i1; Execute i2; Settle id1 o1; Settle id2 o2])
    with (step h (step h b (Settle id1 o1)) (Settle id2 o2)).
  destruct (settle_both h b id2 id1 o2 o1 s2 p2 s1 p1 Hb Hne Hp2 Hp1 Ho2 Ho1)
    as (Hs1 & Hq2 & Hq1).
  destruct (settle_both h b id1 id2 o1 o2 s1 p1 s2 p2 Hb (not_eq_sym Hne)
              Hp1 Hp2 Ho1 Ho2) as (Hs2 & Hq1' & Hq2').
  repeat split; assumption.
Qed.

Lemma overlapping_last_settled_wins_witness :
  state (steps useDetectBullying mount
           [Execute Samples.message_1; Execute Samples.message_2;
            Settle 1 (Fulfilled Samples.result_2);
            Settle 0 (Fulfilled Samples.result_1)])
  = {| data := Samples.result_1; loading := false; error := VNull |}.
Proof.
  exact (proj1 (proj2 (overlapping_last_settled_wins useDetectBullying []
                         Samples.message_1 Samples.message_2
                         [Samples.message_1] [Samples.message_2]
                         (Fulfilled Samples.result_1) (Fulfilled Samples.result_2)
                         _ _ _ _
                         eq_refl eq_refl (conj eq_refl eq_refl)
                         (conj eq_refl eq_refl)))).
Defined.

(** C4 as stated fails: with the first call settling after the second, the
    final state holds the first call's result, not the second's. *)
Lemma overlapping_second_call_does_not_win :
  data (state (steps useDetectBullying mount
                 [Execute Samples.message_1; Execute Samples.message_2;
                  Settle 1 (Fulfilled Samples.result_2);
                  Settle 0 (Fulfilled Samples.result_1)]))
  = Samples.result_1
  /\ state (steps useDetectBullying mount
              [Execute Samples.message_1; Execute Samples.message_2;
               Settle 1 (Fulfilled Samples.result_2);
               Settle 0 (Fulfilled Samples.result_1)])
     <> {| data := Samples.result_2; loading := false; error := VNull |}.
Proof. split; [reflexivity|]. vm_compute. discriminate. Qed.

(** C5: from any adapter, [reset] sets the state to
    [{data: null, loading: false, error: null}], and resetting twice leaves
    the adapter exactly as resetting once does. *)
Theorem reset_idempotent (h : Hook) (a : Adapter) :
  state (step h a Reset) = {| data := VNull; loading := false; error := VNull |}
  /\ step h (step h a Reset) Reset = step h a Reset.
Proof. split; reflexivity. Qed.





End HooksSpec.

(* ===================================================================== *)
(** ** Properties of the provider and of the lookup *)
(* ===================================================================== *)

Module ContextSpec.
Import Js Context Hooks.

(** A render of a provider that already holds its client and its memoized
    value changes nothing, whatever the props. *)
Lemma rerender_noop p c :
  SafeNestProvider p
    {| clientRef := Some c; memo := Some {| client := c; isReady := true |};
       constructions := 1 |}
  = ({| clientRef := Some c; memo := Some {| client := c; isReady := true |};
        constructions := 1 |},
     {| client := c; isReady := true |}).
Proof. reflexivity. Qed.

Lemma rerenders c ps :
  renders {| clientRef := Some c; memo := Some {| client := c; isReady := true |};
             constructions := 1 |} ps
  = ({| clientRef := Some c; memo := Some {| client := c; isReady := true |};
        constructions := 1 |},
     repeat {| client := c; isReady := true |} (length ps)).
Proof.
  induction ps as [|p ps IH]; [reflexivity|].
  cbn [renders]. rewrite rerender_noop, IH. reflexivity.
Qed.

Lemma renders_from_mount p0 ps :
  renders mounted (p0 :: ps)
  = ({| clientRef := Some {| construction := 0; options := client_options p0 |};
        memo := Some {| client := {| construction := 0; options := client_options p0 |};
                        isReady := true |};
        constructions := 1 |},
     repeat {| client := {| construction := 0; options := client_options p0 |};
               isReady := true |} (S (length ps))).
Proof.
  cbn [renders]. change (SafeNestProvider p0 mounted) with
    ({| clientRef := Some {| construction := 0; options := client_options p0 |};
        memo := Some {| client := {| construction := 0; options := client_options p0 |};
                        isReady := true |};
        constructions := 1 |},
     {| client := {| construction := 0; options := client_options p0 |};
        isReady := true |}).
  cbv beta iota. rewrite rerenders. reflexivity.
Qed.

(** C6 (as amended): the lookup hook called with no enclosing provider
    always throws, and what it throws is a plain [Error] whose message is
    ['useSafeNestClient must be used within a SafeNestProvider']; a hook of
    the catalog rendered there throws the same error before it has an
    adapter, so no remote call can be issued. *)
Theorem lookup_outside_provider_throws :
  useSafeNestClient None
  = Throws (VError {| name := Error;
                      message := "useSafeNestClient must be used within a SafeNestProvider" |})
  /\ first_render None
     = Throws (VError {| name := Error;
                         message := "useSafeNestClient must be used within a SafeNestProvider" |}).
Proof. split; reflexivity. Qed.

(** C6 as stated fails: the error thrown is of the generic class [Error],
    not of a class of its own. *)
Lemma lookup_error_is_generic :
  ~ (forall e, useSafeNestClient None = Throws (VError e) -> name e <> Error).
Proof. intros H. exact (H _ eq_refl eq_refl). Qed.

(** C7: a render of the provider constructs a client if and only if
    [clientRef] holds none; after the first render of a mounted provider
    the instance holds the client built from the first props, constructed
    once, and any number of further renders, whatever their [apiKey] and
    [config], leave the instance as it is and provide the same value. *)
Theorem provider_constructs_client_once
    (p0 : SafeNestProviderProps) (ps : list SafeNestProviderProps) :
  (forall p inst,
      constructions (fst (SafeNestProvider p inst))
      = match clientRef inst with
        | None => S (constructions inst)
        | Some _ => constructions inst
        end)
  /\ fst (renders mounted [p0]) = fst (renders mounted (p0 :: ps))
  /\ clientRef (fst (renders mounted (p0 :: ps)))
     = Some {| construction := 0; options := client_options p0 |}
  /\ constructions (fst (renders mounted (p0 :: ps))) = 1
  /\ snd (renders mounted (p0 :: ps))
     = repeat {| client := {| construction := 0; options := client_options p0 |};
                 isReady := true |} (S (length ps)).
Proof.
  split.
  - intros p [[c|] m n]; reflexivity.
  - rewrite (renders_from_mount p0 ps), (renders_from_mount p0 []).
    repeat split.
Qed.

(** A provider first rendered with one key and re-rendered with another
    keeps the client of the first key. *)
Example rerender_with_new_key :
  clientRef (fst (renders mounted [Samples.props_1; Samples.props_2]))
  = Some {| construction := 0;
            options := [("apiKey", VString "key-1");
                        ("timeout", VNumber (SafeInt 10000 I))] |}.
Proof. reflexivity. Qed.

(** C10: every value that a mounted provider hands to its subtree, at any
    render, has [isReady = true], and the lookup hook under it returns that
    very value. *)
Theorem lookup_is_always_ready
    (p0 : SafeNestProviderProps) (ps : list SafeNestProviderProps) :
  length (snd (renders mounted (p0 :: ps))) = S (length ps)
  /\ Forall (fun value =>
               useSafeNestClient (Some value) = Normal value
               /\ isReady value = true)
            (snd (renders mounted (p0 :: ps))).
Proof.
  rewrite renders_from_mount. cbn [snd]. split.
  - apply repeat_length.
  - apply Forall_forall. intros v Hv. apply list_elem_of_In, repeat_spec in Hv. subst v.
    split; reflexivity.
Qed.

End ContextSpec.

(* ===================================================================== *)
(** ** Further properties of the adapter *)
(* ===================================================================== *)

Module HooksLaws.
Import Js Context Hooks HooksSpec.

(** Calling [execute] with a parameter whose arguments throw: the catch
    block runs at once, from the state [execute] has just written. *)
Lemma step_execute_thrown h a input exn :
  client_args h input = Throws exn ->
  state (step h a (Execute input)) = resumed_state loading_state (Rejected exn)
  /\ pending (step h a (Execute input)) = delete (next_call a) (pending a)
  /\ requests (step h a (Execute input)) = requests a
  /\ promises (step h a (Execute input))
     = <[next_call a := resumed_promise (Rejected exn)]> (promises a)
  /\ next_call (step h a (Execute input)) = S (next_call a).
Proof.
  intros Hargs. cbn [step].
  rewrite (run_execute_thrown h input (state a) exn Hargs). cbn. auto.
Qed.

Lemma update_args_nullish h input :
  h = useUpdateBreachStatus \/ h = useUpdateWebhook ->
  input = VUndefined \/ input = VNull ->
  exists e, client_args h input = Throws (VError e) /\ name e = TypeError.
Proof. intros [-> | ->] [-> | ->]; cbn; eexists; split; reflexivity. Qed.

Lemma update_args_object input :
  input <> VUndefined -> input <> VNull ->
  client_args useUpdateBreachStatus input
  = Normal [field input "id"; field input "input"]
  /\ client_args useUpdateWebhook input
     = Normal [field input "webhookId"; field input "input"].
Proof. intros H1 H2. destruct input; try done; split; reflexivity. Qed.

(** What one event adds to the log of remote calls. *)
Lemma step_requests h a e :
  adapter_inv a ->
  requests (step h a e)
  = (requests a
     ++ match e with
        | Execute input =>
            match client_args h input with
            | Normal args => [{| req_call := next_call a;
                                 req_method := client_method h;
                                 req_args := args |}]
            | Throws _ => []
            end
        | _ => []
        end)%list.
Proof.
  intros Ha. destruct e as [input|id o|].
  - destruct (client_args h input) as [args|exn] eqn:Hargs.
    + destruct (step_execute h a input args Hargs) as (_ & _ & Hr & _). exact Hr.
    + destruct (step_execute_thrown h a input exn Hargs) as (_ & _ & Hr & _).
      rewrite Hr, app_nil_r. reflexivity.
  - rewrite app_nil_r. cbn [step].
    destruct (pending a !! id) as [k|] eqn:Hk; [|reflexivity].
    destruct (step_settle h a id o Ha (ex_intro _ k Hk)) as (_ & _ & _ & Hr & _).
    cbn [step] in Hr. rewrite Hk in Hr. exact Hr.
  - rewrite app_nil_r. reflexivity.
Qed.

(** The state in which a resumed invocation leaves the hook: the one it
    found, or one of the two literals written after the [await]. *)
Lemma resumed_state_cases s o :
  resumed_state s o = s
  \/ (exists result,
        resumed_state s o = {| data := result; loading := false; error := VNull |})
  \/ (exists E,
        instanceof_Error E = true
        /\ resumed_state s o = {| data := VNull; loading := false; error := E |}).
Proof.
  destruct o as [result|err]; cbn; [eauto|].
  destruct (normalize err) as [E|exn] eqn:Hn; [|auto].
  right. right. exists E. split; [exact (normalize_is_error err E Hn) | reflexivity].
Qed.

(** The state after one event: untouched, or one of the literals the hook
    writes. *)
Lemma step_state h a e :
  adapter_inv a ->
  state (step h a e) = state a
  \/ state (step h a e) = loading_state
  \/ state (step h a e) = initial_state
  \/ (exists result,
        state (step h a e) = {| data := result; loading := false; error := VNull |})
  \/ (exists E,
        instanceof_Error E = true
        /\ state (step h a e) = {| data := VNull; loading := false; error := E |}).
Proof.
  intros Ha. destruct e as [input|id o|].
  - destruct (client_args h input) as [args|exn] eqn:Hargs.
    + destruct (step_execute h a input args Hargs) as (Hs & _). auto.
    + destruct (step_execute_thrown h a input exn Hargs) as (Hs & _).
      rewrite Hs.
      destruct (resumed_state_cases loading_state (Rejected exn))
        as [-> | [H | H]]; auto.
  - cbn [step]. destruct (pending a !! id) as [k|] eqn:Hk; [|auto].
    destruct (step_settle h a id o Ha (ex_intro _ k Hk)) as (Hs & _).
    cbn [step] in Hs. rewrite Hk in Hs. rewrite Hs.
    destruct (resumed_state_cases (state a) o) as [-> | [H | H]]; auto.
  - auto.
Qed.

Lemma well_shaped_step h a e :
  adapter_inv a -> well_shaped (state a) -> well_shaped (state (step h a e)).
Proof.
  intros Ha Hs.
  destruct (step_state h a e Ha)
    as [-> | [-> | [-> | [[result ->] | (E & HE & ->)]]]]; [exact Hs|..].
  - split; cbn; auto.
  - split; cbn; [discriminate | auto].
  - split; cbn; [discriminate | auto].
  - split; cbn; [discriminate | auto].
Qed.

Lemma well_shaped_steps h es :
  forall a, adapter_inv a -> well_shaped (state a) ->
            well_shaped (state (steps h a es)).
Proof.
  induction es as [|e es IH]; intros a Ha Hs; cbn; [exact Hs|].
  apply IH; [apply inv_step, Ha | apply well_shaped_step; assumption].
Qed.

Lemma loading_in_flight_step h a e :
  adapter_inv a -> handled e = true ->
  loading_in_flight a -> loading_in_flight (step h a e).
Proof.
  intros Ha He Hl Hload. destruct e as [input|id o|].
  - destruct (client_args h input) as [args|exn] eqn:Hargs.
    + destruct (step_execute h a input args Hargs) as (_ & [k Hk] & _ & _ & Hn).
      rewrite Hn, Hk. cbn. rewrite lookup_insert_eq. split; [lia | eauto].
    + destruct (step_execute_thrown h a input exn Hargs) as (Hs & _).
      destruct (client_args_throws h input exn Hargs) as (_ & _ & Hexn).
      rewrite Hs in Hload. unfold resumed_state, normalize in Hload.
      rewrite Hexn in Hload. discriminate.
  - cbn [step] in *. destruct (pending a !! id) as [k|] eqn:Hk; [|auto].
    destruct (step_settle h a id o Ha (ex_intro _ k Hk)) as (Hs & _).
    cbn [step] in Hs. rewrite Hk in Hs. rewrite Hs in Hload.
    destruct o as [result|v]; [discriminate|].
    cbn in He, Hload. destruct (normalize v); discriminate.
  - discriminate.
Qed.

Lemma loading_in_flight_steps h es :
  forall a, adapter_inv a -> Forall (fun e => handled e = true) es ->
            loading_in_flight a -> loading_in_flight (steps h a es).
Proof.
  induction es as [|e es IH]; intros a Ha Hes Hl; cbn; [exact Hl|].
  apply Forall_cons in Hes as [He Hes].
  apply IH; [apply inv_step, Ha | exact Hes
            | apply loading_in_flight_step; assumption].
Qed.

(** A suspended invocation stays suspended under any event other than its
    own settlement. *)
Lemma pending_kept h a id e :
  adapter_inv a -> is_Some (pending a !! id) -> settles id e = false ->
  is_Some (pending (step h a e) !! id).
Proof.
  intros Ha [k Hk] He.
  destruct (inv_pending a Ha _ _ Hk) as (_ & Hlt & _).
  destruct e as [input|id' o|].
  - destruct (client_args h input) as [args|exn] eqn:Hargs.
    + destruct (step_execute h a input args Hargs) as (_ & [k' Hk'] & _).
      rewrite Hk', lookup_insert_ne by lia. eauto.
    + destruct (step_execute_thrown h a input exn Hargs) as (_ & Hp & _).
      rewrite Hp, lookup_delete_ne by lia. eauto.
  - cbn in He. apply bool_decide_eq_false in He.
    cbn [step]. destruct (pending a !! id') as [k'|] eqn:Hk'; [|eauto].
    destruct (step_settle h a id' o Ha (ex_intro _ k' Hk')) as (_ & _ & Hp & _).
    cbn [step] in Hp. rewrite Hk' in Hp. rewrite Hp, lookup_delete_ne by done.
    eauto.
  - cbn. eauto.
Qed.

Lemma pending_kept_steps h id es :
  forall a, adapter_inv a -> is_Some (pending a !! id) ->
            Forall (fun e => settles id e = false) es ->
            is_Some (pending (steps h a es) !! id).
Proof.
  induction es as [|e es IH]; intros a Ha Hk Hes; cbn; [exact Hk|].
  apply Forall_cons in Hes as [He Hes].
  apply IH; [apply inv_step, Ha | apply pending_kept; assumption | exact Hes].
Qed.

Lemma requests_steps h es :
  forall a, adapter_inv a ->
    length (requests (steps h a es))
    = length (requests a) + length (List.filter (issues_call h) es)
    /\ (Forall (fun r => req_method r = client_method h) (requests a) ->
        Forall (fun r => req_method r = client_method h) (requests (steps h a es))).
Proof.
  induction es as [|e es IH]; intros a Ha; cbn [steps fold_left List.filter].
  - cbn. split; [lia | auto].
  - destruct (IH (step h a e) (inv_step h a e Ha)) as [IHlen IHall].
    fold (steps h (step h a e) es).
    rewrite IHlen, (step_requests h a e Ha). split.
    + rewrite length_app. destruct e as [input| |]; cbn; try lia.
      destruct (client_args h input); cbn; lia.
    + intros Hall. apply IHall. rewrite (step_requests h a e Ha).
      apply Forall_app. split; [exact Hall|].
      destruct e as [input| |]; try constructor.
      destruct (client_args h input); repeat constructor.
Qed.

Lemma steps_app h a es1 es2 :
  steps h a (es1 ++ es2) = steps h (steps h a es1) es2.
Proof. apply fold_left_app. Qed.

(** X1: when [execute] of one of the two update hooks is called with
    [undefined] or [null], reading the first property of the parameter
    throws a [TypeError] inside the [try]: no remote call is issued, nothing
    is left suspended, the state goes straight to
    [{data: null, loading: false, error: <that TypeError>}] and the promise
    of [execute] is rejected with the same error. *)
Theorem update_hook_nullish_parameter (h : Hook) (a : Adapter) (input : Value) :
  h = useUpdateBreachStatus \/ h = useUpdateWebhook ->
  input = VUndefined \/ input = VNull ->
  exists e,
    name e = TypeError
    /\ state (step h a (Execute input))
       = {| data := VNull; loading := false; error := VError e |}
    /\ promises (step h a (Execute input)) !! next_call a
       = Some (Rejected (VError e))
    /\ requests (step h a (Execute input)) = requests a
    /\ pending (step h a (Execute input)) !! next_call a = None.
Proof.
  intros Hh Hin.
  destruct (update_args_nullish h input Hh Hin) as (e & Hargs & He).
  destruct (step_execute_thrown h a input (VError e) Hargs)
    as (Hs & Hp & Hr & Hpr & _).
  exists e. rewrite Hs, Hp, Hr, Hpr, lookup_insert_eq, lookup_delete_eq.
  repeat split; first [assumption | reflexivity].
Qed.

Lemma update_hook_nullish_parameter_witness :
  requests (step useUpdateWebhook mount (Execute VNull)) = []
  /\ loading (state (step useUpdateWebhook mount (Execute VNull))) = false.
Proof.
  destruct (update_hook_nullish_parameter useUpdateWebhook mount VNull
              (or_intror eq_refl) (or_intror eq_refl))
    as (e & _ & Hs & _ & Hr & _).
  rewrite Hs, Hr. split; reflexivity.
Defined.

(** X2: called with anything but [undefined] and [null], the two update
    hooks issue their remote call with two arguments read off the
    parameter, [params.id] (or [params.webhookId]) and [params.input]; a
    property the parameter lacks is passed as [undefined], with no check by
    the hook. *)
Theorem update_hook_arguments (a : Adapter) (input : Value) :
  input <> VUndefined -> input <> VNull ->
  requests (step useUpdateBreachStatus a (Execute input))
  = (requests a ++ [{| req_call := next_call a;
                       req_method := "updateBreachStatus";
                       req_args := [field input "id"; field input "input"] |}])%list
  /\ requests (step useUpdateWebhook a (Execute input))
     = (requests a ++ [{| req_call := next_call a;
                          req_method := "updateWebhook";
                          req_args := [field input "webhookId"; field input "input"] |}])%list.
Proof.
  intros H1 H2. destruct (update_args_object input H1 H2) as [Hb Hw].
  destruct (step_execute useUpdateBreachStatus a input _ Hb) as (_ & _ & Hrb & _).
  destruct (step_execute useUpdateWebhook a input _ Hw) as (_ & _ & Hrw & _).
  split; assumption.
Qed.

Lemma update_hook_arguments_witness :
  requests (step useUpdateWebhook mount (Execute Samples.update_params))
  = [{| req_call := 0; req_method := "updateWebhook";
        req_args := [VString "wh_1"; VUndefined] |}].
Proof.
  refine (proj2 (update_hook_arguments mount Samples.update_params _ _));
    discriminate.
Defined.

(** X3: the six hooks whose [execute] has no parameter call their client
    method with no argument at all, whatever is passed to [execute]: two
    calls with different arguments leave the adapter in the same
    condition. *)
Theorem parameterless_hook_ignores_argument
    (h : Hook) (a : Adapter) (i1 i2 : Value) :
  In h parameterless ->
  step h a (Execute i1) = step h a (Execute i2)
  /\ requests (step h a (Execute i1))
     = (requests a ++ [{| req_call := next_call a;
                          req_method := client_method h;
                          req_args := [] |}])%list.
Proof.
  intros Hh. cbn in Hh.
  repeat (destruct Hh as [<- | Hh]; [split; reflexivity|]).
  destruct Hh.
Qed.

Lemma parameterless_hook_ignores_argument_witness :
  step useGetPricing mount (Execute Samples.message_1)
  = step useGetPricing mount (Execute VUndefined).
Proof.
  refine (proj1 (parameterless_hook_ignores_argument useGetPricing mount
                   Samples.message_1 VUndefined _)).
  cbn. tauto.
Defined.

(** X4: whatever calls of [execute] and [reset] and whatever settlements
    the event loop delivers, the state of a hook is well shaped: while
    [loading] is true both [data] and [error] are [null], and an [error]
    that is not [null] is an [Error] object and comes with [null] data and
    [loading] false. *)
Theorem state_always_well_shaped (h : Hook) (es : list Event) :
  well_shaped (state (steps h mount es)).
Proof.
  apply well_shaped_steps; [apply inv_mount|].
  split; cbn; [discriminate | auto].
Qed.

(** X5: as long as every rejection delivered so far was one the catch
    block could normalize, whenever the state of a hook says [loading] the
    most recent invocation of [execute] is suspended on its remote call:
    [loading] is not left true with nothing in flight. *)
Theorem loading_means_call_in_flight (h : Hook) (es : list Event) :
  Forall (fun e => handled e = true) es ->
  loading (state (steps h mount es)) = true ->
  0 < next_call (steps h mount es)
  /\ is_Some (pending (steps h mount es) !! pred (next_call (steps h mount es))).
Proof.
  intros Hes.
  apply (loading_in_flight_steps h es mount inv_mount Hes). discriminate.
Qed.

Lemma loading_means_call_in_flight_witness :
  is_Some (pending (steps useAnalyze mount
                      [Execute Samples.message_2;
                       Settle 0 (Rejected (VString "offline"));
                       Execute Samples.message_1])
           !! 1).
Proof.
  refine (proj2 (loading_means_call_in_flight useAnalyze
                   [Execute Samples.message_2;
                    Settle 0 (Rejected (VString "offline"));
                    Execute Samples.message_1] _ eq_refl)).
  repeat constructor.
Defined.

(** X6: a hook issues exactly one remote call for each call of [execute]
    whose arguments evaluate and none otherwise: settlements, failures
    included, and resets never issue a call (no retry), and every call goes
    to the one client method the hook wraps. *)
Theorem one_remote_call_per_execute (h : Hook) (es : list Event) :
  length (requests (steps h mount es)) = length (List.filter (issues_call h) es)
  /\ Forall (fun r => req_method r = client_method h) (requests (steps h mount es)).
Proof.
  destruct (requests_steps h es mount inv_mount) as [Hlen Hall].
  split; [exact Hlen | apply Hall; constructor].
Qed.

(** X7: an invocation of [execute] that is suspended stays suspended
    through any other events (further calls of [execute], resets,
    settlements of other invocations, whether handled to the end or not);
    when its own remote call then settles and that settlement is handled
    to the end, its promise settles with its own outcome and the state is
    the one written for it. *)
Theorem invocation_settles_with_own_outcome
    (h : Hook) (es es' : list Event) (id : nat)
    (o : Settlement) (s : AsyncState) (p : Settlement) :
  is_Some (pending (steps h mount es) !! id) ->
  Forall (fun e => settles id e = false) es' ->
  outcome_of o s p ->
  is_Some (pending (steps h mount (es ++ es')) !! id)
  /\ promises (steps h mount (es ++ es' ++ [Settle id o])) !! id = Some p
  /\ state (steps h mount (es ++ es' ++ [Settle id o])) = s.
Proof.
  intros Hid Hes' Ho.
  assert (Hk : is_Some (pending (steps h mount (es ++ es')) !! id)).
  { rewrite steps_app. apply pending_kept_steps; auto. apply inv_reachable. }
  split; [exact Hk|].
  rewrite app_assoc, steps_app.
  change (steps h (steps h mount (es ++ es')) [Settle id o])
    with (step h (steps h mount (es ++ es')) (Settle id o)).
  destruct (step_settle h _ id o (inv_reachable h (es ++ es')) Hk) as (Hs & Hp & _).
  destruct (outcome_resumed o s p (state (steps h mount (es ++ es'))) Ho)
    as [Hrs Hrp].
  rewrite Hrs in Hs. rewrite Hrp in Hp. split; assumption.
Qed.

Lemma invocation_settles_with_own_outcome_witness :
  promises (steps useDetectBullying mount
              ([Execute Samples.message_1]
               ++ [Execute Samples.message_2; Reset;
                   Settle 1 (Rejected Samples.unconvertible)]
               ++ [Settle 0 (Fulfilled Samples.result_1)]))
    !! 0 = Some (Fulfilled Samples.result_1).
Proof.
  refine (proj1 (proj2 (invocation_settles_with_own_outcome useDetectBullying
                          [Execute Samples.message_1]
                          [Execute Samples.message_2; Reset;
                           Settle 1 (Rejected Samples.unconvertible)]
                          0 (Fulfilled Samples.result_1) _ _ _ _ _))).
  - eexists. reflexivity.
  - repeat constructor.
  - split; reflexivity.
Defined.

(** X10: in any adapter the event loop can reach, when the remote call of
    a suspended invocation of [execute] fails with a thrown value [v] that
    is an [Error], or whose conversion by [String] succeeds, the error [E]
    made of it ([v] itself, or [new Error(String(v))]) is an [Error]; the
    state becomes [{data: null, loading: false, error: E}] and the promise
    of that invocation is rejected with that very [E]. *)
Theorem execute_failure_normalized
    (h : Hook) (es : list Event) (id : nat) (v E : Value) :
  is_Some (pending (steps h mount es) !! id) ->
  normalizes_to v E ->
  instanceof_Error E = true
  /\ state (step h (steps h mount es) (Settle id (Rejected v)))
     = {| data := VNull; loading := false; error := E |}
  /\ promises (step h (steps h mount es) (Settle id (Rejected v))) !! id
     = Some (Rejected E).
Proof.
  intros Hid HE.
  destruct (step_settle h _ id (Rejected v) (inv_reachable h es) Hid)
    as (Hs & Hp & _).
  pose proof (normalizes_to_error v E HE) as Herr.
  apply normalize_spec in HE.
  unfold resumed_state in Hs. unfold resumed_promise in Hp.
  rewrite HE in Hs, Hp. repeat split; assumption.
Qed.

Lemma execute_failure_normalized_witness :
  state (steps useDetectBullying mount
           [Execute Samples.message_2;
            Settle 0 (Rejected (VNumber (SafeInt 503 I)))])
  = {| data := VNull; loading := false;
       error := VError {| name := Error; message := "503" |} |}.
Proof.
  refine (proj1 (proj2 (execute_failure_normalized useDetectBullying
                          [Execute Samples.message_2] 0
                          (VNumber (SafeInt 503 I))
                          (VError {| name := Error; message := "503" |}) _ _))).
  - eexists. reflexivity.
  - right. split; [reflexivity|]. exists "503". split; reflexivity.
Defined.

End HooksLaws.

(* ===================================================================== *)
(** ** Further properties of the provider *)
(* ===================================================================== *)

Module ContextLaws.
Import Js Context.

Lemma own_property_define props k v k' :
  own_property (define_property props k v) k'
  = if decide (k = k') then v else own_property props k'.
Proof.
  induction props as [|[k0 w] rest IH]; cbn.
  - reflexivity.
  - destruct (decide (k0 = k)) as [->|Hne]; cbn.
    + destruct (decide (k = k')); reflexivity.
    + rewrite IH. destruct (decide (k0 = k')) as [->|]; [|reflexivity].
      rewrite decide_False by congruence. reflexivity.
Qed.

Lemma keys_define props k v k' :
  k' ∈ (define_property props k v).*1 <-> k' = k \/ k' ∈ props.*1.
Proof.
  induction props as [|[k0 w] rest IH]; cbn.
  - rewrite list_elem_of_singleton, elem_of_nil. tauto.
  - destruct (decide (k0 = k)) as [->|Hne]; cbn.
    + rewrite !elem_of_cons. tauto.
    + rewrite !elem_of_cons, IH. tauto.
Qed.

Lemma NoDup_define props k v :
  NoDup props.*1 -> NoDup (define_property props k v).*1.
Proof.
  induction props as [|[k0 w] rest IH]; cbn; intros Hnd.
  - apply NoDup_singleton.
  - apply NoDup_cons in Hnd as [Hk0 Hrest].
    destruct (decide (k0 = k)) as [->|Hne]; cbn.
    + apply NoDup_cons; auto.
    + apply NoDup_cons. split; [|auto].
      rewrite keys_define. intros [->|?]; done.
Qed.

Lemma own_property_spread cfg :
  forall acc k,
    NoDup cfg.*1 ->
    own_property
      (fold_left (fun acc kv => define_property acc (fst kv) (snd kv)) cfg acc) k
    = if decide (k ∈ cfg.*1) then own_property cfg k else own_property acc k.
Proof.
  induction cfg as [|[k0 v] rest IH]; intros acc k Hnd; cbn.
  - rewrite decide_False by apply not_elem_of_nil. reflexivity.
  - apply NoDup_cons in Hnd as [Hk0 Hrest].
    rewrite IH by exact Hrest. rewrite own_property_define.
    destruct (decide (k0 = k)) as [->|Hne].
    + rewrite decide_False by exact Hk0.
      rewrite decide_True by (apply elem_of_cons; auto). reflexivity.
    + destruct (decide (k ∈ rest.*1)) as [Hin|Hnin].
      * rewrite decide_True by (apply elem_of_cons; auto). reflexivity.
      * rewrite decide_False; [reflexivity|].
        rewrite elem_of_cons. intros [->|?]; done.
Qed.

Lemma keys_spread cfg :
  forall acc k,
    k ∈ (fold_left (fun acc kv => define_property acc (fst kv) (snd kv)) cfg acc).*1
    <-> k ∈ cfg.*1 \/ k ∈ acc.*1.
Proof.
  induction cfg as [|[k0 v] rest IH]; intros acc k; cbn.
  - rewrite elem_of_nil. tauto.
  - rewrite IH, keys_define, elem_of_cons. tauto.
Qed.

Lemma NoDup_spread cfg :
  forall acc,
    NoDup acc.*1 ->
    NoDup (fold_left (fun acc kv => define_property acc (fst kv) (snd kv)) cfg acc).*1.
Proof.
  induction cfg as [|[k0 v] rest IH]; intros acc Hnd; cbn; [exact Hnd|].
  apply IH, NoDup_define, Hnd.
Qed.

(** X8: the options object the provider hands to [new SafeNestClient] is
    [{ apiKey, ...config }]: every property of [config] arrives with its
    value unchanged, [apiKey] is the [apiKey] prop unless [config] has a
    property of that name (the spread comes second, so it would win), and
    any other property is [undefined]. *)
Theorem config_reaches_client
    (p : SafeNestProviderProps) (cfg : list (string * Value)) (k : string) :
  config p = Some cfg ->
  NoDup cfg.*1 ->
  own_property (client_options p) k
  = if decide (k ∈ cfg.*1) then own_property cfg k
    else if decide (k = "apiKey") then VString (apiKey p)
    else VUndefined.
Proof.
  intros Hcfg Hnd. unfold client_options. rewrite Hcfg.
  rewrite own_property_spread by exact Hnd.
  destruct (decide (k ∈ cfg.*1)); [reflexivity|]. cbn.
  destruct (decide ("apiKey" = k)) as [<-|Hne].
  - rewrite decide_True by reflexivity. reflexivity.
  - rewrite decide_False by congruence. reflexivity.
Qed.

Lemma config_reaches_client_witness :
  own_property (client_options Samples.props_3) "maxRetries"
  = VNumber (SafeInt 2 I).
Proof.
  refine (eq_trans (config_reaches_client Samples.props_3
                      [("timeout", VNumber (SafeInt 5000 I));
                       ("maxRetries", VNumber (SafeInt 2 I))]
                      "maxRetries" eq_refl _) _).
  - apply (bool_decide_unpack _). vm_compute. exact I.
  - reflexivity.
Defined.

(** X9: the options object is a well-formed object (no property twice)
    and its properties are exactly [apiKey] and the properties of [config]:
    the provider adds no default and drops nothing. *)
Theorem client_options_keys (p : SafeNestProviderProps) (k : string) :
  NoDup (client_options p).*1
  /\ (k ∈ (client_options p).*1
      <-> k = "apiKey" \/ exists cfg, config p = Some cfg /\ k ∈ cfg.*1).
Proof.
  unfold client_options. destruct (config p) as [cfg|]; split.
  - apply NoDup_spread. cbn. apply NoDup_singleton.
  - rewrite keys_spread. cbn. rewrite list_elem_of_singleton. split.
    + intros [?|?]; eauto.
    + intros [?|(cfg' & [= <-] & ?)]; auto.
  - cbn. apply NoDup_singleton.
  - cbn. rewrite list_elem_of_singleton. split; [auto|].
    intros [?|(cfg' & [=] & _)]; auto.
Qed.

End ContextLaws.
